(** * The WebRTC signaling relay of service-robot

    A shallow embedding of the signaling server (the second script of
    [src/unnamed/part_002], its lines 25-58) and the properties of its
    message handler.

    The server keeps two module-level variables, [piSocket] and
    [clientSocket], and installs one listener per accepted socket:

<<
    wss.on('connection', (ws) => {
      ws.on('message', (message) => {
        const msg = JSON.parse(message);
        if (msg.role === 'pi') { piSocket = ws; }
        else if (msg.role === 'client') { clientSocket = ws; }
        if (msg.type === 'offer' && clientSocket) { clientSocket.send(message); }
        else if (msg.type === 'answer' && piSocket) { piSocket.send(message); }
        else if (msg.type === 'ice') {
          (msg.to === 'pi' ? piSocket : clientSocket)?.send(message);
        }
      });
    });
>>

    Node runs every listener to completion on one thread, so the embedding
    passes the two variables explicitly and records the calls made on
    sockets in the order they are made. *)

From Stdlib Require Import String List Bool ZArith Lia.
Import ListNotations.
Open Scope string_scope.

(** ** JavaScript values, as [JSON.parse] returns them

    A number is the double [mantissa * 2 ^ exponent]; the relay never
    looks at one. *)

#[local] Set Warnings "-register-all".

Inductive value : Type :=
| Null
| Boolean (b : bool)
| Number (mantissa exponent : Z)
| Str (s : string)
| Array (items : list value)
| Object (props : list (string * value)).

(** The exceptions the handler can raise. *)
Inductive error : Type :=
| SyntaxError
| TypeError.

(** Own property [k] of a parsed object.  A parsed object has one binding
    per key; in the list the first binding of a key is that property. *)
Fixpoint own (props : list (string * value)) (k : string) : option value :=
  match props with
  | [] => None
  | (k', v) :: rest => if String.eqb k' k then Some v else own rest k
  end.

(** [v.k] for a non-null [v] and a key that no prototype defines ([role],
    [type] and [to] are such keys): the own property of an object,
    [undefined] ([None]) on every other value. *)
Definition prop (v : value) (k : string) : option value :=
  match v with
  | Object props => own props k
  | _ => None
  end.

(** [x === 's'] for a string literal ['s']. *)
Definition strict_eq (x : option value) (s : string) : bool :=
  match x with
  | Some (Str t) => String.eqb t s
  | _ => false
  end.

Notation "x === s" := (strict_eq x s) (at level 49, no associativity).

(** ** Sockets, frames and the relay's variables *)

(** A socket object is known by its identity. *)
Definition socket : Type := nat.

(** An inbound frame: the data handed to the listener, and what
    [JSON.parse] makes of it ([None] when it raises [SyntaxError]). *)
Record frame : Type := Frame {
  data : string;
  parse : option value
}.

(** [let piSocket = null; let clientSocket = null;] *)
Record relay : Type := Relay {
  piSocket : option socket;
  clientSocket : option socket
}.

Definition init : relay := {| piSocket := None; clientSocket := None |}.

(** Method calls on a socket of the [ws] library. *)
Inductive call : Type :=
| send (target : socket) (bytes : string)
| close (target : socket).

(** ** Handler computations: state, calls made, normal or abrupt end *)

Inductive completion (A : Type) : Type :=
| Normal (a : A)
| Throw (e : error).

Arguments Normal {A} a.
Arguments Throw {A} e.

Record outcome (A : Type) : Type := Outcome {
  result : completion A;
  state : relay;
  calls : list call
}.

Arguments Outcome {A} result state calls.
Arguments result {A} o.
Arguments state {A} o.
Arguments calls {A} o.

Definition M (A : Type) : Type := relay -> outcome A.

Definition ret {A : Type} (a : A) : M A :=
  fun st => Outcome (Normal a) st [].

Definition throw {A : Type} (e : error) : M A :=
  fun st => Outcome (Throw e) st [].

Definition bind {A B : Type} (m : M A) (k : A -> M B) : M B :=
  fun st =>
    let o := m st in
    match result o with
    | Normal a =>
        let o' := k a (state o) in
        Outcome (result o') (state o') (calls o ++ calls o')
    | Throw e => Outcome (Throw e) (state o) (calls o)
    end.

Notation "x <- m ;; k" := (bind m (fun x => k))
  (at level 61, m at next level, right associativity).
Notation "m ;; k" := (bind m (fun _ => k))
  (at level 61, right associativity).

(** [JSON.parse(message)] *)
Definition JSON_parse (message : frame) : M value :=
  match parse message with
  | Some v => ret v
  | None => throw SyntaxError
  end.

(** [msg.k]: reading a property of [null] raises [TypeError]. *)
Definition member (msg : value) (k : string) : M (option value) :=
  match msg with
  | Null => throw TypeError
  | _ => ret (prop msg k)
  end.

Definition get_piSocket : M (option socket) :=
  fun st => Outcome (Normal (piSocket st)) st [].

Definition get_clientSocket : M (option socket) :=
  fun st => Outcome (Normal (clientSocket st)) st [].

(** [piSocket = ws] *)
Definition set_piSocket (ws : socket) : M unit :=
  fun st =>
    Outcome (Normal tt)
            {| piSocket := Some ws; clientSocket := clientSocket st |} [].

(** [clientSocket = ws] *)
Definition set_clientSocket (ws : socket) : M unit :=
  fun st =>
    Outcome (Normal tt)
            {| piSocket := piSocket st; clientSocket := Some ws |} [].

(** A socket object is truthy, [null] is falsy. *)
Definition truthy (s : option socket) : bool :=
  match s with
  | Some _ => true
  | None => false
  end.

(** [s.send(message)]: calling a method of [null] raises [TypeError]. *)
Definition call_send (s : option socket) (message : frame) : M unit :=
  match s with
  | Some target => fun st => Outcome (Normal tt) st [send target (data message)]
  | None => throw TypeError
  end.

(** [s?.send(message)]: nothing happens on [null]. *)
Definition optional_send (s : option socket) (message : frame) : M unit :=
  match s with
  | Some target => fun st => Outcome (Normal tt) st [send target (data message)]
  | None => ret tt
  end.

(** ** The message listener (lines 35-51) *)

Definition onMessage (ws : socket) (message : frame) : M unit :=
  msg <- JSON_parse message ;;
  role <- member msg "role" ;;
  (if role === "pi" then set_piSocket ws
   else
     role' <- member msg "role" ;;
     if role' === "client" then set_clientSocket ws else ret tt) ;;
  type <- member msg "type" ;;
  client <- get_clientSocket ;;
  if (type === "offer") && truthy client then call_send client message
  else
    type' <- member msg "type" ;;
    pi <- get_piSocket ;;
    if (type' === "answer") && truthy pi then call_send pi message
    else
      type'' <- member msg "type" ;;
      if type'' === "ice" then
        to <- member msg "to" ;;
        pi' <- get_piSocket ;;
        client' <- get_clientSocket ;;
        optional_send (if to === "pi" then pi' else client') message
      else ret tt.

(** ** Events of a socket and the relay process *)

Inductive ws_event : Type :=
| message_event (message : frame)
| close_event.

(** The listener that the ['connection'] handler (lines 34-52) installs
    on [ws] for an event: one for ['message'], none for ['close']. *)
Definition connection (ws : socket) (ev : ws_event) : option (M unit) :=
  match ev with
  | message_event message => Some (onMessage ws message)
  | close_event => None
  end.

(** Emitting an event runs its listener; an event without listener is
    ignored. *)
Definition emit (ws : socket) (ev : ws_event) : M unit :=
  match connection ws ev with
  | Some listener => listener
  | None => ret tt
  end.

(** The server process: an exception that leaves a listener is not
    caught anywhere in the script, so Node ends the process. *)
Inductive process : Type :=
| Running (st : relay)
| Exited (e : error).

Definition deliver (p : process) (ws : socket) (ev : ws_event)
  : process * list call :=
  match p with
  | Exited e => (Exited e, [])
  | Running st =>
      let o := emit ws ev st in
      match result o with
      | Normal _ => (Running (state o), calls o)
      | Throw e => (Exited e, calls o)
      end
  end.

Fixpoint run (p : process) (events : list (socket * ws_event))
  : process * list call :=
  match events with
  | [] => (p, [])
  | (ws, ev) :: rest =>
      let '(p', made) := deliver p ws ev in
      let '(p'', made') := run p' rest in
      (p'', (made ++ made')%list)
  end.

(** ** What peers send

    The peers send the JSON text of small objects with string fields
    (lines 5-11).  [sent fields] is such a frame: a text that lists the
    fields in order, each string written as [JSON.stringify] writes it,
    and the object [JSON.parse] returns for that text.  A string stands
    for the UTF-8 bytes of its text. *)

Definition quote : string := String (Ascii.ascii_of_nat 34) EmptyString.

Definition backslash : string := String (Ascii.ascii_of_nat 92) EmptyString.

Definition hex (n : nat) : string :=
  nth n ["0"; "1"; "2"; "3"; "4"; "5"; "6"; "7";
         "8"; "9"; "a"; "b"; "c"; "d"; "e"; "f"] "0".

(** One character inside a JSON string: the quote, the backslash and the
    control characters are escaped, every other character is itself. *)
Definition escape_char (c : Ascii.ascii) : string :=
  let n := Ascii.nat_of_ascii c in
  if Nat.eqb n 34 then backslash ++ quote
  else if Nat.eqb n 92 then backslash ++ backslash
  else if Nat.eqb n 8 then backslash ++ "b"
  else if Nat.eqb n 9 then backslash ++ "t"
  else if Nat.eqb n 10 then backslash ++ "n"
  else if Nat.eqb n 12 then backslash ++ "f"
  else if Nat.eqb n 13 then backslash ++ "r"
  else if Nat.ltb n 32 then
    backslash ++ "u00" ++ hex (Nat.div n 16) ++ hex (Nat.modulo n 16)
  else String c EmptyString.

Fixpoint escape (s : string) : string :=
  match s with
  | EmptyString => ""
  | String c rest => escape_char c ++ escape rest
  end.

Fixpoint members_text (fields : list (string * string)) : string :=
  match fields with
  | [] => ""
  | (k, v) :: rest =>
      quote ++ escape k ++ quote ++ ":" ++ quote ++ escape v ++ quote ++
      match rest with
      | [] => ""
      | _ => "," ++ members_text rest
      end
  end.

(** [JSON.parse] keeps one property per key: a key met again keeps its
    place and takes the later value. *)
Fixpoint put (k : string) (v : value) (props : list (string * value))
  : list (string * value) :=
  match props with
  | [] => [(k, v)]
  | (k', v') :: rest =>
      if String.eqb k' k then (k', v) :: rest else (k', v') :: put k v rest
  end.

Definition properties (fields : list (string * string))
  : list (string * value) :=
  fold_left (fun props kv => put (fst kv) (Str (snd kv)) props) fields [].

Definition sent (fields : list (string * string)) : frame :=
  {| data := "{" ++ members_text fields ++ "}";
     parse := Some (Object (properties fields)) |}.

(** ** Reading the handler: roles, registration and routing *)

(** The two Role Slots are the two variables. *)
Inductive role : Type :=
| Pi
| Client.

Definition occupant (st : relay) (r : role) : option socket :=
  match r with
  | Pi => piSocket st
  | Client => clientSocket st
  end.

Definition other (r : role) : role :=
  match r with
  | Pi => Client
  | Client => Pi
  end.

(** The slot lines 38-42 assign for a parsed message, if any. *)
Definition registers (msg : value) : option role :=
  if prop msg "role" === "pi" then Some Pi
  else if prop msg "role" === "client" then Some Client
  else None.

(** The slot whose occupant lines 44-50 address for a parsed message:
    defined exactly for the types [offer], [answer] and [ice]. *)
Definition route (msg : value) : option role :=
  if prop msg "type" === "offer" then Some Client
  else if prop msg "type" === "answer" then Some Pi
  else if prop msg "type" === "ice" then
    Some (if prop msg "to" === "pi" then Pi else Client)
  else None.

Definition registration (message : frame) : option role :=
  match parse message with
  | Some msg => registers msg
  | None => None
  end.

Definition destination (message : frame) : option role :=
  match parse message with
  | Some msg => route msg
  | None => None
  end.

Definition assign (r : role) (ws : socket) (st : relay) : relay :=
  match r with
  | Pi => {| piSocket := Some ws; clientSocket := clientSocket st |}
  | Client => {| piSocket := piSocket st; clientSocket := Some ws |}
  end.

Definition registered (msg : value) (ws : socket) (st : relay) : relay :=
  match registers msg with
  | Some r => assign r ws st
  | None => st
  end.

Definition forwarded (msg : value) (bytes : string) (st : relay) : list call :=
  match route msg with
  | Some d =>
      match occupant st d with
      | Some target => [send target bytes]
      | None => []
      end
  | None => []
  end.

(** ** Frames and states of the scenarios *)

Definition register_pi : frame := sent [("role", "pi")].
Definition register_client : frame := sent [("role", "client")].
Definition offer_X : frame := sent [("type", "offer"); ("sdp", "X")].
Definition answer_Y : frame := sent [("type", "answer"); ("sdp", "Y")].
Definition ice_cand1 : frame := sent [("type", "ice"); ("candidate", "cand1")].

(** Frames that do not follow the peers' usual shape. *)
Definition register_client_with_offer : frame :=
  sent [("role", "client"); ("type", "offer"); ("sdp", "X")].
Definition register_pi_with_offer : frame :=
  sent [("role", "pi"); ("type", "offer"); ("sdp", "X")].
Definition hello : frame := sent [("type", "hello")].
Definition not_json : frame := {| data := "hello"; parse := None |}.
Definition null_text : frame := {| data := "null"; parse := Some Null |}.

(** States reached by registrations. *)
Definition both_bound : relay :=
  {| piSocket := Some 1; clientSocket := Some 2 |}.
Definition only_pi : relay :=
  {| piSocket := Some 1; clientSocket := None |}.
Definition only_client : relay :=
  {| piSocket := None; clientSocket := Some 2 |}.

(** ** The peers that connect to the relay

    Two scripts open a socket to the relay: the pi peer in the first
    script of [src/unnamed/part_002] (lines 1-24) and [pi-signal.js]
    ([src/unnamed/part_001]).  A script's listener sends frames on its
    socket and prints lines; among the printed arguments [None] is
    [undefined]. *)

Inductive action : Type :=
| ws_send (message : frame)
| console_log (text : string) (args : list (option value)).

(** The frames among a script's actions, as the message events of the
    relay's socket [ws] for that peer, in the order sent. *)
Definition arrivals (ws : socket) (actions : list action)
  : list (socket * ws_event) :=
  flat_map (fun a =>
              match a with
              | ws_send message => [(ws, message_event message)]
              | console_log _ _ => []
              end) actions.

(** The message events of several frames of one socket. *)
Definition frames_from (ws : socket) (frames : list frame)
  : list (socket * ws_event) :=
  map (fun message => (ws, message_event message)) frames.

(** *** The pi peer of part_002 (lines 1-24) *)

Definition gstreamer_offer : frame :=
  sent [("type", "offer"); ("sdp", "REPLACE_ME_WITH_GSTREAMER_OFFER")].

(** [ws.on('open', ...)], lines 4-12. *)
Definition pi_on_open : list action :=
  [ws_send register_pi; ws_send gstreamer_offer].

(** [ws.on('message', ...)], lines 14-24: two independent [if]s. *)
Definition pi_on_message (msg : frame) : list action * completion unit :=
  match parse msg with
  | None => ([], Throw SyntaxError)
  | Some Null => ([], Throw TypeError)
  | Some parsed =>
      (((if prop parsed "type" === "answer"
         then [console_log "Received answer from browser:"
                           [prop parsed "sdp"]]
         else []) ++
        (if prop parsed "type" === "ice"
         then [console_log "Received ICE from browser:"
                           [prop parsed "candidate"]]
         else []))%list,
       Normal tt)
  end.

(** *** pi-signal.js (part_001) *)

(** [sdpOffer], lines 11-29. *)
Definition sdpOffer : value :=
  Object
    [("type", Str "offer");
     ("sdp", Str "v=0
o=- 46117348 2 IN IP4 127.0.0.1
s=-
t=0 0
a=group:BUNDLE 0
a=msid-semantic: WMS
m=video 9 UDP/TLS/RTP/SAVPF 96
c=IN IP4 0.0.0.0
a=mid:0
a=sendonly
a=rtcp-mux
a=rtpmap:96 VP8/90000
a=ice-ufrag:someufrag
a=ice-pwd:somepwd
a=fingerprint:sha-256 11:22:33:44:55:66:77:88:99:AA:BB:CC:DD:EE:FF:00:11:22:33:44:55:66:77:88:99:AA:BB:CC:DD:EE:FF:00
")].

(** The frame of line 32, [JSON.stringify({ type: 'offer', data: sdpOffer })]:
    [text] is the string [JSON.stringify] returns, which nothing below
    depends on. *)
Definition dummy_offer (text : string) : frame :=
  {| data := text;
     parse := Some (Object [("type", Str "offer"); ("data", sdpOffer)]) |}.

(** [ws.on('open', ...)], lines 7-34. *)
Definition pi_signal_on_open (text : string) : list action :=
  [console_log "Connected to signaling server." [];
   ws_send (dummy_offer text);
   console_log "Sent dummy offer." []].

(** [ws.on('message', ...)], lines 36-44: the parsed value is printed
    before its [type] is read. *)
Definition pi_signal_on_message (msg : frame)
  : list action * completion unit :=
  match parse msg with
  | None => ([], Throw SyntaxError)
  | Some Null =>
      ([console_log "Received from server:" [Some Null]], Throw TypeError)
  | Some message =>
      (console_log "Received from server:" [Some message] ::
       (if prop message "type" === "answer"
        then [console_log "Received answer from browser." []]
        else []),
       Normal tt)
  end.

(** ** Reading a run of the relay *)

(** What the relay sends for a frame when the slots stand as [st]. *)
Definition relayed (st : relay) (message : frame) : list call :=
  match destination message with
  | Some d =>
      match occupant st d with
      | Some target => [send target (data message)]
      | None => []
      end
  | None => []
  end.

(** The socket of the last registration for role [r] among [events],
    and [current] when there is none. *)
Fixpoint last_registrant (r : role) (events : list (socket * ws_event))
         (current : option socket) : option socket :=
  match events with
  | [] => current
  | (ws, message_event message) :: rest =>
      last_registrant r rest
        (match registration message with
         | Some r' =>
             match r, r' with
             | Pi, Pi | Client, Client => Some ws
             | _, _ => current
             end
         | None => current
         end)
  | (_, close_event) :: rest => last_registrant r rest current
  end.

(** The frames received in a run. *)
Fixpoint received (events : list (socket * ws_event)) : list frame :=
  match events with
  | [] => []
  | (_, message_event message) :: rest => message :: received rest
  | (_, close_event) :: rest => received rest
  end.

(** ** The handler in closed form *)

Lemma strict_eq_true (x : option value) (s : string) :
  x === s = true -> x = Some (Str s).
Proof.
  destruct x as [[ | | | t | | ]|]; cbn; try discriminate.
  intros H. apply String.eqb_eq in H. now subst.
Qed.

Lemma strict_eq_other (x : option value) (s t : string) :
  String.eqb s t = false -> x === s = true -> x === t = false.
Proof.
  intros Hst H. apply strict_eq_true in H. subst x. exact Hst.
Qed.

Lemma bind_ret {A B : Type} (a : A) (k : A -> M B) (st : relay) :
  bind (ret a) k st = k a st.
Proof. unfold bind, ret; cbn. now destruct (k a st). Qed.

Lemma member_nonnull (msg : value) (k : string) :
  msg <> Null -> member msg k = ret (prop msg k).
Proof. destruct msg; intros H; [contradiction | reflexivity ..]. Qed.

Lemma route_nonnull (msg : value) (d : role) :
  route msg = Some d -> msg <> Null.
Proof. intros H ->. discriminate H. Qed.

Lemma registers_nonnull (msg : value) (r : role) :
  registers msg = Some r -> msg <> Null.
Proof. intros H ->. discriminate H. Qed.

Lemma onMessage_parsed (ws : socket) (message : frame) (msg : value)
      (st : relay) :
  parse message = Some msg ->
  msg <> Null ->
  onMessage ws message st
  = Outcome (Normal tt) (registered msg ws st)
            (forwarded msg (data message) (registered msg ws st)).
Proof.
  intros Hp Hn.
  unfold onMessage, JSON_parse. rewrite Hp, bind_ret.
  rewrite !member_nonnull by assumption.
  unfold registered, forwarded, registers, route.
  generalize (prop msg "role") (prop msg "type") (prop msg "to").
  intros r t o. destruct st as [p c].
  cbv beta iota zeta delta
      [bind ret throw result state calls get_piSocket get_clientSocket
       set_piSocket set_clientSocket call_send optional_send truthy
       piSocket clientSocket occupant assign andb app].
  destruct (t === "offer") eqn:Hoffer.
  - rewrite (strict_eq_other t "offer" "answer" eq_refl Hoffer).
    rewrite (strict_eq_other t "offer" "ice" eq_refl Hoffer).
    destruct (r === "pi"), (r === "client"), p, c; reflexivity.
  - destruct (t === "answer") eqn:Hanswer.
    + rewrite (strict_eq_other t "answer" "ice" eq_refl Hanswer).
      destruct (r === "pi"), (r === "client"), p, c; reflexivity.
    + destruct (t === "ice"), (o === "pi"), (r === "pi"), (r === "client"),
        p, c; reflexivity.
Qed.

Lemma onMessage_unparsed (ws : socket) (message : frame) (st : relay) :
  parse message = None ->
  onMessage ws message st = Outcome (Throw SyntaxError) st [].
Proof.
  intros Hp. unfold onMessage, JSON_parse. rewrite Hp. reflexivity.
Qed.

Lemma onMessage_null (ws : socket) (message : frame) (st : relay) :
  parse message = Some Null ->
  onMessage ws message st = Outcome (Throw TypeError) st [].
Proof.
  intros Hp. unfold onMessage, JSON_parse. rewrite Hp. reflexivity.
Qed.

Lemma registration_inv (message : frame) (r : role) :
  registration message = Some r ->
  exists msg, parse message = Some msg /\ registers msg = Some r /\ msg <> Null.
Proof.
  unfold registration. destruct (parse message) as [msg|]; [|discriminate].
  intros H. exists msg. eauto using registers_nonnull.
Qed.

Lemma destination_inv (message : frame) (d : role) :
  destination message = Some d ->
  exists msg, parse message = Some msg /\ route msg = Some d /\ msg <> Null.
Proof.
  unfold destination. destruct (parse message) as [msg|]; [|discriminate].
  intros H. exists msg. eauto using route_nonnull.
Qed.

Lemma null_or_not (msg : value) : msg = Null \/ msg <> Null.
Proof. destruct msg; [now left | right; discriminate ..]. Qed.

(** Every frame falls in one of the three cases of the closed form. *)
Lemma onMessage_cases (ws : socket) (message : frame) (st : relay) :
  onMessage ws message st = Outcome (Throw SyntaxError) st [] \/
  onMessage ws message st = Outcome (Throw TypeError) st [] \/
  exists msg,
    parse message = Some msg /\ msg <> Null /\
    onMessage ws message st
    = Outcome (Normal tt) (registered msg ws st)
              (forwarded msg (data message) (registered msg ws st)).
Proof.
  destruct (parse message) as [msg|] eqn:Hp.
  - destruct (null_or_not msg) as [->|Hn].
    + right; left. now apply onMessage_null.
    + right; right. exists msg. auto using onMessage_parsed.
  - left. now apply onMessage_unparsed.
Qed.

Lemma forwarded_sends (msg : value) (bytes : string) (st : relay) (c : call) :
  In c (forwarded msg bytes st) ->
  exists target, c = send target bytes.
Proof.
  unfold forwarded.
  destruct (route msg) as [d|]; [|contradiction].
  destruct (occupant st d) as [target|]; [|contradiction].
  intros [<-|[]]. now exists target.
Qed.

Lemma forwarded_length (msg : value) (bytes : string) (st : relay) :
  length (forwarded msg bytes st) <= 1.
Proof.
  unfold forwarded.
  destruct (route msg) as [d|]; [|cbn; lia].
  destruct (occupant st d); cbn; lia.
Qed.

Lemma occupant_assign_same (r : role) (ws : socket) (st : relay) :
  occupant (assign r ws st) r = Some ws.
Proof. now destruct r. Qed.

Lemma occupant_assign_other (r : role) (ws : socket) (st : relay) :
  occupant (assign r ws st) (other r) = occupant st (other r).
Proof. now destruct r. Qed.

Lemma assign_idempotent (r : role) (ws : socket) (st : relay) :
  assign r ws (assign r ws st) = assign r ws st.
Proof. now destruct r. Qed.

Lemma occupant_registered (msg : value) (ws : socket) (st : relay) (r : role) :
  occupant (registered msg ws st) r = occupant st r \/
  occupant (registered msg ws st) r = Some ws.
Proof.
  unfold registered. destruct (registers msg) as [[]|], r; cbn; auto.
Qed.

(** ** Scenarios of the specification, run on the handler *)

(** Scenario A: pi registers, client registers, pi sends an offer. *)
Example scenario_A :
  run (Running init)
      [(1, message_event register_pi);
       (2, message_event register_client);
       (1, message_event offer_X)]
  = (Running {| piSocket := Some 1; clientSocket := Some 2 |},
     [send 2 (data offer_X)]).
Proof. reflexivity. Qed.

(** Scenario B: the candidate reaches a client that registered before,
    and is lost when the client registers after it. *)
Example scenario_B :
  run (Running init)
      [(2, message_event register_client);
       (1, message_event register_pi);
       (1, message_event ice_cand1)]
  = (Running {| piSocket := Some 1; clientSocket := Some 2 |},
     [send 2 (data ice_cand1)])
  /\
  run (Running init)
      [(1, message_event register_pi);
       (1, message_event ice_cand1);
       (2, message_event register_client)]
  = (Running {| piSocket := Some 1; clientSocket := Some 2 |}, []).
Proof. split; reflexivity. Qed.


(** ** Routing (lines 44-50) *)

(** C1, as stated, fails: with both slots bound, the socket in the client
    slot sends an offer; the relay addresses the client slot, so the offer
    goes back to its sender and the pi slot, the opposite role, gets
    nothing. *)
Lemma client_offer_returns_to_client :
  occupant both_bound Client = Some 2 /\
  occupant both_bound Pi = Some 1 /\
  onMessage 2 offer_X both_bound
  = Outcome (Normal tt) both_bound [send 2 (data offer_X)].
Proof. repeat split. Qed.

(** C1, amended: for every message of type offer, answer or ice the
    destination slot is fixed by the message alone, whoever sends it: the
    client slot for an offer, the pi slot for an answer, and for ice the
    pi slot when [to] is ['pi'] and the client slot otherwise.  The one
    call made is a send to the occupant of that slot (read after the
    message's own registration, if it carries one), and none when the slot
    is empty. *)
Theorem destination_fixed_by_message
        (ws : socket) (message : frame) (msg : value) (d : role) (st : relay) :
  parse message = Some msg ->
  route msg = Some d ->
  d = (if prop msg "type" === "offer" then Client
       else if prop msg "type" === "answer" then Pi
       else if prop msg "to" === "pi" then Pi else Client) /\
  calls (onMessage ws message st)
  = match occupant (state (onMessage ws message st)) d with
    | Some target => [send target (data message)]
    | None => []
    end.
Proof.
  intros Hp Hd. split.
  - unfold route in Hd.
    destruct (prop msg "type" === "offer"); [congruence|].
    destruct (prop msg "type" === "answer"); [congruence|].
    destruct (prop msg "type" === "ice"); congruence.
  - rewrite (onMessage_parsed ws message msg st Hp (route_nonnull msg d Hd)).
    cbn. unfold forwarded. now rewrite Hd.
Qed.

Lemma destination_fixed_by_message_witness :
  Client = Client /\
  calls (onMessage 2 offer_X both_bound)
  = match occupant (state (onMessage 2 offer_X both_bound)) Client with
    | Some target => [send target (data offer_X)]
    | None => []
    end.
Proof.
  apply (destination_fixed_by_message
           2 offer_X
           (Object [("type", Str "offer"); ("sdp", Str "X")])
           Client both_bound); reflexivity.
Defined.

(** C2, as stated, fails: socket 3 never registered; its offer is not
    refused, it is sent to the client like anybody's offer. *)
Lemma unregistered_offer_is_forwarded :
  run (Running init)
      [(2, message_event register_client); (3, message_event offer_X)]
  = (Running only_client, [send 2 (data offer_X)]).
Proof. reflexivity. Qed.

(** C2, amended: an offer, answer or ice message (one carrying no role)
    from a socket that holds neither slot raises no error: the handler
    returns normally, leaves the slots as they are, and sends the message
    to the occupant of the slot its type addresses, if there is one. *)
Theorem unregistered_sender_is_served
        (ws : socket) (message : frame) (d : role) (st : relay) :
  occupant st Pi <> Some ws ->
  occupant st Client <> Some ws ->
  registration message = None ->
  destination message = Some d ->
  onMessage ws message st
  = Outcome (Normal tt) st
            match occupant st d with
            | Some target => [send target (data message)]
            | None => []
            end.
Proof.
  intros _ _ Hr Hd.
  destruct (destination_inv message d Hd) as (msg & Hp & Hroute & Hn).
  unfold registration in Hr. rewrite Hp in Hr.
  rewrite (onMessage_parsed ws message msg st Hp Hn).
  unfold registered, forwarded. now rewrite Hr, Hroute.
Qed.

Lemma unregistered_sender_is_served_witness :
  onMessage 3 offer_X only_client
  = Outcome (Normal tt) only_client [send 2 (data offer_X)].
Proof.
  apply (unregistered_sender_is_served 3 offer_X Client only_client);
    cbn; congruence.
Defined.

(** ** Disconnection (lines 34-52) *)

(** C3, as stated, fails: the pi socket registers and disconnects; the pi
    slot still holds it, and a later answer is sent to it. *)
Lemma disconnected_pi_keeps_slot :
  run (Running init)
      [(1, message_event register_pi);
       (1, close_event);
       (2, message_event answer_Y)]
  = (Running only_pi, [send 1 (data answer_Y)]).
Proof. reflexivity. Qed.

Lemma deliver_close (p : process) (ws : socket) :
  deliver p ws close_event = (p, []).
Proof. now destruct p. Qed.

(** C3, amended: the relay installs no listener for a socket's close
    event, so a disconnect leaves both slots unchanged, the other peer's
    and the one that held the socket alike, and makes no call on any
    socket; nothing the relay does later depends on it: a run with the
    disconnect behaves as the same run without it. *)
Theorem disconnect_changes_nothing (ws : socket) :
  (forall st, deliver (Running st) ws close_event = (Running st, [])) /\
  (forall before after p,
      run p (before ++ (ws, close_event) :: after) = run p (before ++ after)).
Proof.
  split; [reflexivity|].
  induction before as [|[ws' ev] before IH]; intros after p.
  - cbn [app run]. rewrite deliver_close. now destruct (run p after).
  - cbn [app run]. destruct (deliver p ws' ev) as [p' made].
    now rewrite IH.
Qed.

(** ** Registration (lines 38-42) *)

(** C4, as stated, fails: socket 2 registers as pi while socket 1 holds
    the pi slot; socket 2 takes the slot, and no call at all is made on
    socket 1: it is not closed. *)
Lemma replaced_pi_is_not_closed :
  onMessage 2 register_pi only_pi
  = Outcome (Normal tt) {| piSocket := Some 2; clientSocket := None |} [] /\
  ~ In (close 1) (calls (onMessage 2 register_pi only_pi)).
Proof. split; [reflexivity | intros []]. Qed.

(** C4, amended: a registration for a slot held by another socket puts
    the new socket in that slot in place of the previous one and leaves
    the other slot alone; the relay closes no socket. *)
Theorem registration_replaces_occupant
        (ws : socket) (message : frame) (r : role) (previous : socket)
        (st : relay) :
  registration message = Some r ->
  occupant st r = Some previous ->
  previous <> ws ->
  result (onMessage ws message st) = Normal tt /\
  occupant (state (onMessage ws message st)) r = Some ws /\
  occupant (state (onMessage ws message st)) r <> Some previous /\
  occupant (state (onMessage ws message st)) (other r)
  = occupant st (other r) /\
  forall target, ~ In (close target) (calls (onMessage ws message st)).
Proof.
  intros Hr _ Hdiff.
  destruct (registration_inv message r Hr) as (msg & Hp & Hreg & Hn).
  rewrite (onMessage_parsed ws message msg st Hp Hn). cbn.
  unfold registered. rewrite Hreg.
  rewrite occupant_assign_same, occupant_assign_other.
  repeat split; try congruence.
  intros target Hin. apply forwarded_sends in Hin as [t Ht]. discriminate Ht.
Qed.

Lemma registration_replaces_occupant_witness :
  result (onMessage 2 register_pi only_pi) = Normal tt /\
  occupant (state (onMessage 2 register_pi only_pi)) Pi = Some 2 /\
  occupant (state (onMessage 2 register_pi only_pi)) Pi <> Some 1 /\
  occupant (state (onMessage 2 register_pi only_pi)) (other Pi)
  = occupant only_pi (other Pi) /\
  forall target, ~ In (close target) (calls (onMessage 2 register_pi only_pi)).
Proof.
  apply (registration_replaces_occupant 2 register_pi Pi 1 only_pi);
    [reflexivity | reflexivity | lia].
Defined.

(** ** Malformed input (lines 35-36) *)

(** C5, as stated, fails: a frame that is not JSON makes [JSON.parse]
    raise inside the listener, nothing catches it and the process ends;
    the offer the pi socket sends next is never forwarded.  The text
    [null] ends the process as well, on reading [msg.role]. *)
Lemma malformed_message_ends_process :
  run (Running both_bound)
      [(2, message_event not_json); (1, message_event offer_X)]
  = (Exited SyntaxError, []) /\
  deliver (Running both_bound) 2 (message_event null_text)
  = (Exited TypeError, []).
Proof. split; reflexivity. Qed.

(** C5, amended: a frame whose text is JSON for a value other than
    [null], of a recognised type or not, never ends the process: the
    listener returns normally, closes no socket, changes a slot only by
    binding the sender to it, and makes at most one call. *)
Theorem parsed_message_keeps_relay_running
        (ws : socket) (message : frame) (msg : value) (st : relay) :
  parse message = Some msg ->
  msg <> Null ->
  exists (st' : relay) (made : list call),
    deliver (Running st) ws (message_event message) = (Running st', made) /\
    (forall r, occupant st' r = occupant st r \/ occupant st' r = Some ws) /\
    (forall target, ~ In (close target) made) /\
    length made <= 1.
Proof.
  intros Hp Hn.
  exists (registered msg ws st),
         (forwarded msg (data message) (registered msg ws st)).
  unfold deliver, emit, connection.
  rewrite (onMessage_parsed ws message msg st Hp Hn). cbn.
  repeat split.
  - apply occupant_registered.
  - intros target Hin. apply forwarded_sends in Hin as [t Ht]. discriminate Ht.
  - apply forwarded_length.
Qed.

Lemma parsed_message_keeps_relay_running_witness :
  exists (st' : relay) (made : list call),
    deliver (Running both_bound) 2 (message_event hello)
    = (Running st', made) /\
    (forall r, occupant st' r = occupant both_bound r \/
               occupant st' r = Some 2) /\
    (forall target, ~ In (close target) made) /\
    length made <= 1.
Proof.
  apply (parsed_message_keeps_relay_running
           2 hello (Object [("type", Str "hello")]) both_bound);
    [reflexivity | discriminate].
Defined.

(** ** Dropping, fidelity and the frame of forwarding *)

(** C6, as stated, fails: the client slot is empty when the pi socket's
    frame [{role: client, type: offer}] arrives; the frame first binds its
    sender to the client slot and then is sent there, to its sender. *)
Lemma registering_offer_reaches_sender :
  occupant only_pi Client = None /\
  destination register_client_with_offer = Some Client /\
  onMessage 1 register_client_with_offer only_pi
  = Outcome (Normal tt)
            {| piSocket := Some 1; clientSocket := Some 1 |}
            [send 1 (data register_client_with_offer)].
Proof. repeat split. Qed.

(** C6, amended: an offer, answer or ice message whose destination slot
    (the slot its type addresses) is empty when it arrives is discarded,
    with no call on any socket and no error, unless the message itself
    registers its sender in that slot. *)
Theorem empty_destination_drops
        (ws : socket) (message : frame) (d : role) (st : relay) :
  destination message = Some d ->
  occupant st d = None ->
  registration message <> Some d ->
  result (onMessage ws message st) = Normal tt /\
  calls (onMessage ws message st) = [].
Proof.
  intros Hd Hempty Hr.
  destruct (destination_inv message d Hd) as (msg & Hp & Hroute & Hn).
  unfold registration in Hr. rewrite Hp in Hr.
  rewrite (onMessage_parsed ws message msg st Hp Hn). cbn.
  split; [reflexivity|].
  unfold forwarded, registered. rewrite Hroute.
  destruct (registers msg) as [r|]; [|now rewrite Hempty].
  destruct r, d; cbn in *; try congruence; now rewrite Hempty.
Qed.

Lemma empty_destination_drops_witness :
  result (onMessage 1 offer_X only_pi) = Normal tt /\
  calls (onMessage 1 offer_X only_pi) = [].
Proof.
  apply (empty_destination_drops 1 offer_X Client only_pi);
    [reflexivity | reflexivity | discriminate].
Defined.

(** C7: whatever the relay sends while handling a frame is the data of
    that frame, unchanged. *)
Theorem forwarded_bytes_unchanged
        (ws : socket) (message : frame) (st : relay)
        (target : socket) (bytes : string) :
  In (send target bytes) (calls (onMessage ws message st)) ->
  bytes = data message.
Proof.
  destruct (onMessage_cases ws message st) as [E|[E|(msg & _ & _ & E)]];
    rewrite E; cbn; try contradiction.
  intros Hin. apply forwarded_sends in Hin as [t Ht]. congruence.
Qed.

Lemma forwarded_bytes_unchanged_witness :
  In (send 2 (data offer_X)) (calls (onMessage 1 offer_X both_bound)) /\
  data offer_X = data offer_X.
Proof.
  split.
  - cbn. left. reflexivity.
  - apply (forwarded_bytes_unchanged 1 offer_X both_bound 2 (data offer_X)).
    cbn. left. reflexivity.
Defined.

(** C8: a frame that carries no role [pi] or [client] (an offer, an
    answer, a candidate, an unknown type, even an unreadable frame)
    leaves both slots exactly as they were: only registrations change
    them. *)
Theorem only_registration_changes_slots
        (ws : socket) (message : frame) (st : relay) :
  registration message = None ->
  state (onMessage ws message st) = st.
Proof.
  intros Hr.
  destruct (onMessage_cases ws message st) as [E|[E|(msg & Hp & _ & E)]];
    rewrite E; cbn; try reflexivity.
  unfold registration in Hr. rewrite Hp in Hr.
  unfold registered. now rewrite Hr.
Qed.

Lemma only_registration_changes_slots_witness :
  state (onMessage 1 offer_X both_bound) = both_bound /\
  state (onMessage 3 hello both_bound) = both_bound /\
  state (onMessage 3 not_json both_bound) = both_bound.
Proof.
  split; [|split].
  - apply (only_registration_changes_slots 1 offer_X both_bound). reflexivity.
  - apply (only_registration_changes_slots 3 hello both_bound). reflexivity.
  - apply (only_registration_changes_slots 3 not_json both_bound). reflexivity.
Defined.

(** C9: when a socket registers for a role and then registers for the
    same role again, the second registration changes nothing: the slots
    are as the first left them, no socket is closed, and a plain
    registration (one carrying no offer, answer or ice type) makes no call
    at all. *)
Theorem repeated_registration_is_idempotent
        (ws : socket) (first second : frame) (r : role) (st : relay) :
  registration first = Some r ->
  registration second = Some r ->
  state (onMessage ws second (state (onMessage ws first st)))
  = state (onMessage ws first st) /\
  (forall target,
      ~ In (close target)
           (calls (onMessage ws second (state (onMessage ws first st))))) /\
  (destination second = None ->
   onMessage ws second (state (onMessage ws first st))
   = Outcome (Normal tt) (state (onMessage ws first st)) []).
Proof.
  intros H1 H2.
  destruct (registration_inv first r H1) as (m1 & Hp1 & Hr1 & Hn1).
  destruct (registration_inv second r H2) as (m2 & Hp2 & Hr2 & Hn2).
  rewrite (onMessage_parsed ws first m1 st Hp1 Hn1). cbn.
  rewrite (onMessage_parsed ws second m2 _ Hp2 Hn2). cbn.
  unfold registered. rewrite Hr1, Hr2, assign_idempotent.
  repeat split.
  - intros target Hin. apply forwarded_sends in Hin as [t Ht]. discriminate Ht.
  - unfold destination. rewrite Hp2. intros Hnone.
    unfold forwarded. now rewrite Hnone.
Qed.

Lemma repeated_registration_is_idempotent_witness :
  state (onMessage 1 register_pi (state (onMessage 1 register_pi init)))
  = state (onMessage 1 register_pi init) /\
  (forall target,
      ~ In (close target)
           (calls (onMessage 1 register_pi
                             (state (onMessage 1 register_pi init))))) /\
  (destination register_pi = None ->
   onMessage 1 register_pi (state (onMessage 1 register_pi init))
   = Outcome (Normal tt) (state (onMessage 1 register_pi init)) []).
Proof.
  apply (repeated_registration_is_idempotent 1 register_pi register_pi Pi init);
    reflexivity.
Defined.

(** C10: a frame that carries both a role and a type offer, answer or ice
    is handled in one call as a registration followed by forwarding: the
    sender is bound to the slot of its role first, and the destination is
    the occupant of the addressed slot in the state so updated. *)
Theorem registration_precedes_forwarding
        (ws : socket) (message : frame) (r d : role) (st : relay) :
  registration message = Some r ->
  destination message = Some d ->
  onMessage ws message st
  = Outcome (Normal tt) (assign r ws st)
            match occupant (assign r ws st) d with
            | Some target => [send target (data message)]
            | None => []
            end.
Proof.
  intros Hr Hd.
  destruct (registration_inv message r Hr) as (msg & Hp & Hreg & Hn).
  unfold destination in Hd. rewrite Hp in Hd.
  rewrite (onMessage_parsed ws message msg st Hp Hn).
  unfold registered, forwarded. now rewrite Hreg, Hd.
Qed.

Lemma registration_precedes_forwarding_witness :
  onMessage 1 register_pi_with_offer only_client
  = Outcome (Normal tt) both_bound [send 2 (data register_pi_with_offer)] /\
  onMessage 2 register_client_with_offer init
  = Outcome (Normal tt) only_client
            [send 2 (data register_client_with_offer)].
Proof.
  split.
  - apply (registration_precedes_forwarding
             1 register_pi_with_offer Pi Client only_client); reflexivity.
  - apply (registration_precedes_forwarding
             2 register_client_with_offer Client Client init); reflexivity.
Defined.

(** The frame [{role: "pi", type: "offer", sdp: s}] of any sender, for any
    [s]: the sender holds the pi slot afterwards and the frame has gone to
    the client, when there is one. *)
Example pi_offer_in_one_frame (ws : socket) (s : string) (st : relay) :
  onMessage ws (sent [("role", "pi"); ("type", "offer"); ("sdp", s)]) st
  = Outcome (Normal tt)
            {| piSocket := Some ws; clientSocket := clientSocket st |}
            match clientSocket st with
            | Some target =>
                [send target
                      (data (sent [("role", "pi"); ("type", "offer");
                                   ("sdp", s)]))]
            | None => []
            end.
Proof.
  rewrite (onMessage_parsed
             ws (sent [("role", "pi"); ("type", "offer"); ("sdp", s)])
             (Object [("role", Str "pi"); ("type", Str "offer");
                      ("sdp", Str s)]) st eq_refl);
    [reflexivity | discriminate].
Qed.

(** ** Runs of the relay *)

Lemma deliver_message (ws : socket) (message : frame) (st : relay) :
  deliver (Running st) ws (message_event message)
  = match parse message with
    | None => (Exited SyntaxError, [])
    | Some Null => (Exited TypeError, [])
    | Some msg =>
        (Running (registered msg ws st),
         forwarded msg (data message) (registered msg ws st))
    end.
Proof.
  unfold deliver, emit, connection.
  destruct (parse message) as [msg|] eqn:Hp.
  - destruct (null_or_not msg) as [->|Hn].
    + now rewrite (onMessage_null ws message st Hp).
    + rewrite (onMessage_parsed ws message msg st Hp Hn).
      now destruct msg.
  - now rewrite (onMessage_unparsed ws message st Hp).
Qed.

Lemma relayed_forwarded (message : frame) (msg : value) (st : relay) :
  parse message = Some msg ->
  forwarded msg (data message) st = relayed st message.
Proof. intros Hp. unfold relayed, destination. now rewrite Hp. Qed.

Lemma registered_registration (message : frame) (msg : value)
      (ws : socket) (st : relay) :
  parse message = Some msg ->
  registered msg ws st
  = match registration message with
    | Some r => assign r ws st
    | None => st
    end.
Proof. intros Hp. unfold registered, registration. now rewrite Hp. Qed.

Lemma run_exited (e : error) (events : list (socket * ws_event)) :
  run (Exited e) events = (Exited e, []).
Proof.
  induction events as [|[ws ev] rest IH]; [reflexivity|].
  cbn [run deliver]. now rewrite IH.
Qed.

Lemma run_cons (p : process) (ws : socket) (ev : ws_event)
      (rest : list (socket * ws_event)) :
  run p ((ws, ev) :: rest)
  = (fst (run (fst (deliver p ws ev)) rest),
     (snd (deliver p ws ev) ++ snd (run (fst (deliver p ws ev)) rest))%list).
Proof.
  cbn [run]. destruct (deliver p ws ev) as [p' made]. cbn [fst snd].
  now destruct (run p' rest).
Qed.

Lemma run_app (p : process) (before after : list (socket * ws_event)) :
  run p (before ++ after)
  = (fst (run (fst (run p before)) after),
     (snd (run p before) ++ snd (run (fst (run p before)) after))%list).
Proof.
  revert p. induction before as [|[ws ev] before IH]; intros p.
  - cbn. now destruct (run p after).
  - cbn [app]. rewrite !run_cons, IH. cbn. now rewrite app_assoc.
Qed.

(** X1: the handler raises an exception exactly on a frame that is not
    JSON ([SyntaxError]) or is the JSON text [null] ([TypeError]), and it
    does so before any effect: no slot has changed and no call was
    made. *)
Theorem handler_throws_before_any_effect
        (ws : socket) (message : frame) (st : relay) (e : error) :
  (result (onMessage ws message st) = Throw e <->
   (parse message = None /\ e = SyntaxError) \/
   (parse message = Some Null /\ e = TypeError)) /\
  (result (onMessage ws message st) = Throw e ->
   state (onMessage ws message st) = st /\
   calls (onMessage ws message st) = []).
Proof.
  destruct (parse message) as [msg|] eqn:Hp.
  - destruct (null_or_not msg) as [->|Hn].
    + rewrite (onMessage_null ws message st Hp). cbn. split; [|auto].
      split.
      * intros [= <-]. now right.
      * intros [[[=] _]|[_ ->]]. reflexivity.
    + rewrite (onMessage_parsed ws message msg st Hp Hn). cbn.
      split; [|discriminate]. split; [discriminate|].
      intros [[[=] _]|[[= ->] _]]. now contradiction Hn.
  - rewrite (onMessage_unparsed ws message st Hp). cbn. split; [|auto].
    split.
    + intros [= <-]. now left.
    + intros [[_ ->]|[[=] _]]. reflexivity.
Qed.

(** X2: a frame whose type is none of offer, answer and ice (absent,
    another string, not a string, differing in case) makes the relay send
    nothing, to the sender or to anybody. *)
Theorem unknown_type_is_ignored
        (ws : socket) (message : frame) (st : relay) :
  destination message = None ->
  calls (onMessage ws message st) = [].
Proof.
  intros Hd.
  destruct (onMessage_cases ws message st) as [E|[E|(msg & Hp & _ & E)]];
    rewrite E; cbn; try reflexivity.
  unfold destination in Hd. rewrite Hp in Hd.
  unfold forwarded. now rewrite Hd.
Qed.

Lemma unknown_type_is_ignored_witness :
  calls (onMessage 1 hello both_bound) = [] /\
  calls (onMessage 1 (sent [("type", "Offer")]) both_bound) = [] /\
  calls (onMessage 1 register_pi both_bound) = [].
Proof.
  split; [|split].
  - apply (unknown_type_is_ignored 1 hello both_bound). reflexivity.
  - apply (unknown_type_is_ignored 1 (sent [("type", "Offer")]) both_bound).
    reflexivity.
  - apply (unknown_type_is_ignored 1 register_pi both_bound). reflexivity.
Defined.

(** X3: one frame that is not JSON, from any socket, ends the relay for
    good: the run ends with the process exited, and what the relay sent
    is what it had sent before that frame; no later frame is forwarded or
    registers anybody. *)
Theorem unreadable_frame_stops_relay
        (p : process) (ws : socket) (message : frame)
        (before after : list (socket * ws_event)) :
  parse message = None ->
  (exists e,
      fst (run p (before ++ (ws, message_event message) :: after))
      = Exited e) /\
  snd (run p (before ++ (ws, message_event message) :: after))
  = snd (run p before).
Proof.
  intros Hp. rewrite run_app, run_cons. cbn [fst snd].
  destruct (run p before) as [[st|e] made]; cbn [fst snd].
  - rewrite deliver_message, Hp. cbn [fst snd].
    rewrite run_exited. cbn. split; [eauto | now rewrite app_nil_r].
  - cbn [deliver fst snd]. rewrite run_exited. cbn.
    split; [eauto | now rewrite app_nil_r].
Qed.

Lemma unreadable_frame_stops_relay_witness :
  (exists e,
      fst (run (Running init)
               ([(1, message_event register_pi);
                 (2, message_event register_client)] ++
                (2, message_event not_json) ::
                [(1, message_event offer_X)]))
      = Exited e) /\
  snd (run (Running init)
           ([(1, message_event register_pi);
             (2, message_event register_client)] ++
            (2, message_event not_json) ::
            [(1, message_event offer_X)]))
  = snd (run (Running init)
             [(1, message_event register_pi);
              (2, message_event register_client)]).
Proof.
  apply (unreadable_frame_stops_relay
           (Running init) 2 not_json
           [(1, message_event register_pi);
            (2, message_event register_client)]
           [(1, message_event offer_X)]).
  reflexivity.
Defined.

Lemma deliver_message_cases (ws : socket) (message : frame) (st : relay) :
  (exists e, deliver (Running st) ws (message_event message) = (Exited e, []))
  \/
  (exists msg,
      parse message = Some msg /\ msg <> Null /\
      deliver (Running st) ws (message_event message)
      = (Running (registered msg ws st),
         forwarded msg (data message) (registered msg ws st))).
Proof.
  rewrite deliver_message.
  destruct (parse message) as [msg|] eqn:Hp; [|left; eauto].
  destruct (null_or_not msg) as [->|Hn]; [left; eauto|].
  right. exists msg. now destruct msg.
Qed.

Lemma forwarded_target (msg : value) (bytes : string) (st : relay)
      (target : socket) (bytes' : string) :
  In (send target bytes') (forwarded msg bytes st) ->
  bytes' = bytes /\ exists d, route msg = Some d /\ occupant st d = Some target.
Proof.
  unfold forwarded.
  destruct (route msg) as [d|]; [|contradiction].
  destruct (occupant st d) as [t|] eqn:Ho; [|contradiction].
  intros [[= <- <-]|[]]. eauto.
Qed.

(** X4: the relay never sends anything to a socket that holds no slot
    and registers for none: whatever the other sockets do, such a socket
    receives no frame, not even its own. *)
Theorem unregistered_socket_receives_nothing
        (c : socket) (events : list (socket * ws_event)) (st : relay) :
  occupant st Pi <> Some c ->
  occupant st Client <> Some c ->
  (forall message,
      In (c, message_event message) events -> registration message = None) ->
  forall bytes, ~ In (send c bytes) (snd (run (Running st) events)).
Proof.
  revert st. induction events as [|[ws ev] rest IH]; intros st Hpi Hcl Hreg bytes.
  - intros [].
  - rewrite run_cons. intros Hin. apply in_app_or in Hin.
    assert (Hrest : forall message,
               In (c, message_event message) rest ->
               registration message = None)
      by (intros m Hm; apply Hreg; now right).
    destruct ev as [message|].
    + destruct (deliver_message_cases ws message st)
        as [[e E]|(msg & Hp & Hn & E)]; rewrite E in Hin; cbn [fst snd] in Hin.
      * rewrite run_exited in Hin. destruct Hin as [[]|[]].
      * assert (Hkeep : forall r, occupant (registered msg ws st) r <> Some c).
        { intros r. destruct (Nat.eq_dec ws c) as [->|Hne].
          - rewrite (registered_registration message msg c st Hp).
            rewrite (Hreg message (or_introl eq_refl)).
            now destruct r.
          - destruct (occupant_registered msg ws st r) as [-> | ->];
              [now destruct r | congruence]. }
        destruct Hin as [Hin|Hin].
        -- apply forwarded_target in Hin as (_ & d & _ & Ho).
           exact (Hkeep d Ho).
        -- exact (IH _ (Hkeep Pi) (Hkeep Client) Hrest bytes Hin).
    + rewrite deliver_close in Hin. cbn [fst snd] in Hin.
      destruct Hin as [[]|Hin]. exact (IH st Hpi Hcl Hrest bytes Hin).
Qed.

Lemma unregistered_socket_receives_nothing_witness :
  occupant init Pi <> Some 3 /\
  occupant init Client <> Some 3 /\
  ~ In (send 3 (data offer_X))
       (snd (run (Running init)
                 [(1, message_event register_pi);
                  (3, message_event offer_X);
                  (2, message_event register_client);
                  (3, message_event ice_cand1);
                  (2, message_event answer_Y)])).
Proof.
  split; [discriminate | split; [discriminate|]].
  apply (unregistered_socket_receives_nothing
           3
           [(1, message_event register_pi);
            (3, message_event offer_X);
            (2, message_event register_client);
            (3, message_event ice_cand1);
            (2, message_event answer_Y)]
           init); [discriminate | discriminate |].
  intros message [H|[H|[H|[H|[H|[]]]]]]; inversion H; reflexivity.
Defined.

Lemma occupant_registered_last (message : frame) (msg : value)
      (ws : socket) (st : relay) (r : role) :
  parse message = Some msg ->
  occupant (registered msg ws st) r
  = match registration message with
    | Some r' =>
        match r, r' with
        | Pi, Pi | Client, Client => Some ws
        | _, _ => occupant st r
        end
    | None => occupant st r
    end.
Proof.
  intros Hp. rewrite (registered_registration message msg ws st Hp).
  destruct (registration message) as [[]|], r; reflexivity.
Qed.

(** X5: while the relay runs, each slot holds the socket of the last
    registration received for its role, whatever else happened since (other
    frames, a registration for the other role, that socket's disconnect);
    a slot that was bound is never empty again. *)
Theorem slot_holds_last_registrant
        (r : role) (events : list (socket * ws_event))
        (st st' : relay) (made : list call) :
  run (Running st) events = (Running st', made) ->
  occupant st' r = last_registrant r events (occupant st r) /\
  (occupant st r <> None -> occupant st' r <> None).
Proof.
  revert st made. induction events as [|[ws ev] rest IH]; intros st made Hrun.
  - cbn in Hrun. injection Hrun as <- _. now split.
  - rewrite run_cons in Hrun. destruct ev as [message|].
    + destruct (deliver_message_cases ws message st)
        as [[e E]|(msg & Hp & Hn & E)]; rewrite E in Hrun; cbn [fst snd] in Hrun.
      * rewrite run_exited in Hrun. discriminate Hrun.
      * destruct (run (Running (registered msg ws st)) rest) as [p made'] eqn:Hr.
        cbn [fst snd] in Hrun. injection Hrun as -> _.
        destruct (IH _ _ Hr) as [Hlast Hkeep].
        cbn [last_registrant].
        rewrite <- (occupant_registered_last message msg ws st r Hp).
        split; [exact Hlast|].
        intros Hbound. apply Hkeep.
        destruct (occupant_registered msg ws st r) as [-> | ->];
          [exact Hbound | discriminate].
    + rewrite deliver_close in Hrun. cbn [fst snd] in Hrun.
      destruct (run (Running st) rest) as [p made'] eqn:Hr.
      cbn [fst snd] in Hrun. injection Hrun as -> _.
      exact (IH _ _ Hr).
Qed.

Lemma slot_holds_last_registrant_witness :
  occupant {| piSocket := Some 3; clientSocket := Some 2 |} Pi
  = last_registrant
      Pi
      [(1, message_event register_pi);
       (2, message_event register_client);
       (1, close_event);
       (3, message_event register_pi_with_offer);
       (2, message_event answer_Y)]
      (occupant init Pi) /\
  (occupant init Pi <> None ->
   occupant {| piSocket := Some 3; clientSocket := Some 2 |} Pi <> None).
Proof.
  apply (slot_holds_last_registrant
           Pi
           [(1, message_event register_pi);
            (2, message_event register_client);
            (1, close_event);
            (3, message_event register_pi_with_offer);
            (2, message_event answer_Y)]
           init
           {| piSocket := Some 3; clientSocket := Some 2 |}
           [send 2 (data register_pi_with_offer); send 3 (data answer_Y)]).
  reflexivity.
Defined.

Lemma deliver_calls (p : process) (ws : socket) (ev : ws_event) (c : call) :
  In c (snd (deliver p ws ev)) ->
  exists message target,
    ev = message_event message /\
    c = send target (data message) /\
    destination message <> None.
Proof.
  destruct p as [st|e]; [|intros []].
  destruct ev as [message|]; [|rewrite deliver_close; intros []].
  destruct (deliver_message_cases ws message st)
    as [[e E]|(msg & Hp & Hn & E)]; rewrite E; cbn [snd]; [intros []|].
  intros Hin. exists message.
  destruct c as [target bytes|target];
    [|apply forwarded_sends in Hin as [t Ht]; discriminate Ht].
  apply forwarded_target in Hin as (-> & d & Hd & _).
  exists target. repeat split.
  unfold destination. rewrite Hp, Hd. discriminate.
Qed.

Lemma deliver_calls_length (p : process) (ws : socket) (ev : ws_event) :
  length (snd (deliver p ws ev)) <= length (received [(ws, ev)]).
Proof.
  destruct p as [st|e]; [|cbn; lia].
  destruct ev as [message|]; [|rewrite deliver_close; cbn; lia].
  destruct (deliver_message_cases ws message st)
    as [[e E]|(msg & Hp & Hn & E)]; rewrite E; cbn [snd received length];
    [lia | apply forwarded_length].
Qed.

(** X6: the relay originates nothing.  Every call it makes in a run is a
    send that repeats, byte for byte, the data of a frame of type offer,
    answer or ice received earlier in that run; it makes at most one call
    per frame received, and never closes a socket. *)
Theorem relay_only_repeats_received_frames
        (p : process) (events : list (socket * ws_event)) :
  (forall c, In c (snd (run p events)) ->
             exists message target,
               In message (received events) /\
               c = send target (data message) /\
               destination message <> None) /\
  length (snd (run p events)) <= length (received events).
Proof.
  revert p. induction events as [|[ws ev] rest IH]; intros p.
  - cbn. split; [intros c []|lia].
  - rewrite run_cons. cbn [snd]. split.
    + intros c Hin. apply in_app_or in Hin as [Hin|Hin].
      * apply deliver_calls in Hin as (message & target & -> & -> & Hd).
        exists message, target. cbn. auto.
      * apply (proj1 (IH _)) in Hin as (message & target & Hin & -> & Hd).
        exists message, target. repeat split; [|assumption].
        destruct ev; cbn; auto.
    + rewrite length_app.
      pose proof (deliver_calls_length p ws ev) as H1.
      pose proof (proj2 (IH (fst (deliver p ws ev)))) as H2.
      destruct ev; cbn [received length] in *; lia.
Qed.

(** X7: frames of one sender that carry no role and address a slot held
    by the same socket throughout are forwarded to that socket one by one,
    in the order received, none lost, merged or repeated; the slots stay
    as they were. *)
Theorem burst_is_forwarded_in_order
        (ws : socket) (frames : list frame) (d : role) (target : socket)
        (st : relay) :
  occupant st d = Some target ->
  Forall (fun message =>
            registration message = None /\ destination message = Some d)
         frames ->
  run (Running st) (frames_from ws frames)
  = (Running st, map (fun message => send target (data message)) frames).
Proof.
  intros Ho Hall. induction Hall as [|message rest [Hr Hd] _ IH];
    [reflexivity|].
  cbn [frames_from map]. rewrite run_cons.
  destruct (destination_inv message d Hd) as (msg & Hp & Hroute & Hn).
  assert (Hst : registered msg ws st = st)
    by (rewrite (registered_registration message msg ws st Hp);
        now rewrite Hr).
  assert (Hf : forwarded msg (data message) st = [send target (data message)])
    by (unfold forwarded; now rewrite Hroute, Ho).
  rewrite deliver_message, Hp.
  destruct msg; [contradiction|..]; cbn [fst snd];
    rewrite Hst, Hf; fold (frames_from ws rest); now rewrite IH.
Qed.

Lemma burst_is_forwarded_in_order_witness :
  run (Running both_bound) (frames_from 1 [offer_X; ice_cand1; offer_X])
  = (Running both_bound,
     map (fun message => send 2 (data message)) [offer_X; ice_cand1; offer_X]).
Proof.
  apply (burst_is_forwarded_in_order
           1 [offer_X; ice_cand1; offer_X] Client 2 both_bound);
    [reflexivity | repeat constructor].
Defined.

(** ** The peers against the relay *)

Lemma deliver_roleless (ws : socket) (message : frame) (d : role)
      (st : relay) :
  registration message = None ->
  destination message = Some d ->
  deliver (Running st) ws (message_event message)
  = (Running st, relayed st message).
Proof.
  intros Hr Hd.
  destruct (destination_inv message d Hd) as (msg & Hp & _ & Hn).
  unfold deliver, emit, connection.
  rewrite (onMessage_parsed ws message msg st Hp Hn). cbn.
  rewrite (registered_registration message msg ws st Hp), Hr.
  now rewrite (relayed_forwarded message msg st Hp).
Qed.

Lemma run_single (p : process) (ws : socket) (ev : ws_event) :
  run p [(ws, ev)] = deliver p ws ev.
Proof.
  rewrite run_cons. cbn [run fst snd]. rewrite app_nil_r.
  now destruct (deliver p ws ev).
Qed.

Lemma forwarded_frame_parsed (ws : socket) (message : frame) (st : relay)
      (c : call) :
  In c (calls (onMessage ws message st)) ->
  exists msg, parse message = Some msg /\ msg <> Null.
Proof.
  destruct (onMessage_cases ws message st) as [E|[E|(msg & Hp & Hn & E)]];
    rewrite E; cbn; [intros [] | intros [] | eauto].
Qed.

(** X8: the pi peer's two startup frames, as they reach the relay: its
    socket is bound to the pi slot and the client slot is untouched; the
    offer, sent once right after the registration, goes to the client if
    one is registered and is lost otherwise; the answer that arrives next
    is sent to the pi peer. *)
Theorem pi_startup_handshake
        (ws sender : socket) (answer : frame) (st : relay) :
  registration answer = None ->
  destination answer = Some Pi ->
  run (Running st)
      (arrivals ws pi_on_open ++ [(sender, message_event answer)])
  = (Running {| piSocket := Some ws; clientSocket := clientSocket st |},
     (match clientSocket st with
      | Some target => [send target (data gstreamer_offer)]
      | None => []
      end ++ [send ws (data answer)])%list).
Proof.
  intros Hr Hd.
  assert (Hopen :
            run (Running st) (arrivals ws pi_on_open)
            = (Running {| piSocket := Some ws;
                          clientSocket := clientSocket st |},
               match clientSocket st with
               | Some target => [send target (data gstreamer_offer)]
               | None => []
               end))
    by (destruct st as [p [c|]]; reflexivity).
  rewrite run_app, Hopen. cbn [fst snd].
  rewrite run_single, (deliver_roleless sender answer Pi _ Hr Hd).
  unfold relayed. rewrite Hd. reflexivity.
Qed.

Lemma pi_startup_handshake_witness :
  run (Running only_client)
      (arrivals 1 pi_on_open ++ [(2, message_event answer_Y)])
  = (Running both_bound,
     [send 2 (data gstreamer_offer); send 1 (data answer_Y)]).
Proof.
  apply (pi_startup_handshake 1 2 answer_Y only_client); reflexivity.
Defined.

Lemma pi_on_message_parsed (message : frame) (msg : value) :
  parse message = Some msg ->
  msg <> Null ->
  pi_on_message message
  = (((if prop msg "type" === "answer"
       then [console_log "Received answer from browser:" [prop msg "sdp"]]
       else []) ++
      (if prop msg "type" === "ice"
       then [console_log "Received ICE from browser:" [prop msg "candidate"]]
       else []))%list,
     Normal tt).
Proof.
  intros Hp Hn. unfold pi_on_message. rewrite Hp.
  destruct msg; [contradiction | reflexivity ..].
Qed.

(** X9: the pi peer's listener never fails on a frame the relay forwards,
    and prints at most one line for it: the [sdp] of an answer, the
    [candidate] of an ice frame, nothing for an offer. *)
Theorem pi_reads_what_relay_forwards
        (ws : socket) (message : frame) (st : relay) (c : call) :
  In c (calls (onMessage ws message st)) ->
  exists msg,
    parse message = Some msg /\
    pi_on_message message
    = (if prop msg "type" === "answer"
       then [console_log "Received answer from browser:" [prop msg "sdp"]]
       else if prop msg "type" === "ice"
            then [console_log "Received ICE from browser:"
                              [prop msg "candidate"]]
            else [],
       Normal tt).
Proof.
  intros Hin.
  destruct (forwarded_frame_parsed ws message st c Hin) as (msg & Hp & Hn).
  exists msg. split; [assumption|].
  rewrite (pi_on_message_parsed message msg Hp Hn).
  destruct (prop msg "type" === "answer") eqn:Ha; [|reflexivity].
  now rewrite (strict_eq_other _ "answer" "ice" eq_refl Ha).
Qed.

Lemma pi_reads_what_relay_forwards_witness :
  In (send 1 (data answer_Y)) (calls (onMessage 2 answer_Y both_bound)) /\
  exists msg,
    parse answer_Y = Some msg /\
    pi_on_message answer_Y
    = (if prop msg "type" === "answer"
       then [console_log "Received answer from browser:" [prop msg "sdp"]]
       else if prop msg "type" === "ice"
            then [console_log "Received ICE from browser:"
                              [prop msg "candidate"]]
            else [],
       Normal tt).
Proof.
  split.
  - cbn. left. reflexivity.
  - apply (pi_reads_what_relay_forwards
             2 answer_Y both_bound (send 1 (data answer_Y))).
    cbn. left. reflexivity.
Defined.

(** X10: pi-signal.js sends its offer without ever registering.  The
    relay forwards the offer to the client if one is registered and binds
    nobody; an answer that follows goes to whoever holds the pi slot, so a
    pi-signal socket that does not hold it gets no answer: all it can
    receive is its own offer, when it holds the client slot. *)
Theorem pi_signal_never_gets_answer
        (text : string) (ws sender : socket) (answer : frame) (st : relay) :
  occupant st Pi <> Some ws ->
  registration answer = None ->
  destination answer = Some Pi ->
  run (Running st)
      (arrivals ws (pi_signal_on_open text) ++
       [(sender, message_event answer)])
  = (Running st,
     (match clientSocket st with
      | Some target => [send target text]
      | None => []
      end ++
      match piSocket st with
      | Some target => [send target (data answer)]
      | None => []
      end)%list) /\
  forall bytes,
    In (send ws bytes)
       (snd (run (Running st)
                 (arrivals ws (pi_signal_on_open text) ++
                  [(sender, message_event answer)]))) ->
    clientSocket st = Some ws /\ bytes = text.
Proof.
  intros Hpi Hr Hd.
  assert (Hrun :
            run (Running st)
                (arrivals ws (pi_signal_on_open text) ++
                 [(sender, message_event answer)])
            = (Running st,
               (match clientSocket st with
                | Some target => [send target text]
                | None => []
                end ++
                match piSocket st with
                | Some target => [send target (data answer)]
                | None => []
                end)%list)).
  { assert (Hopen :
              run (Running st) (arrivals ws (pi_signal_on_open text))
              = (Running st,
                 match clientSocket st with
                 | Some target => [send target text]
                 | None => []
                 end))
      by (destruct st as [p [c|]]; reflexivity).
    rewrite run_app, Hopen. cbn [fst snd].
    rewrite run_single, (deliver_roleless sender answer Pi _ Hr Hd).
    unfold relayed. rewrite Hd. reflexivity. }
  split; [exact Hrun|].
  rewrite Hrun. cbn [snd]. intros bytes Hin.
  apply in_app_or in Hin as [Hin|Hin].
  - destruct (clientSocket st) as [t|]; [|contradiction].
    destruct Hin as [[= -> ->]|[]]. now split.
  - cbn in Hpi. destruct (piSocket st) as [t|]; [|contradiction].
    destruct Hin as [[= -> _]|[]]. now contradiction Hpi.
Qed.

Lemma pi_signal_never_gets_answer_witness :
  run (Running only_client)
      (arrivals 1 (pi_signal_on_open "text") ++
       [(2, message_event answer_Y)])
  = (Running only_client,
     (match clientSocket only_client with
      | Some target => [send target "text"]
      | None => []
      end ++
      match piSocket only_client with
      | Some target => [send target (data answer_Y)]
      | None => []
      end)%list) /\
  forall bytes,
    In (send 1 bytes)
       (snd (run (Running only_client)
                 (arrivals 1 (pi_signal_on_open "text") ++
                  [(2, message_event answer_Y)]))) ->
    clientSocket only_client = Some 1 /\ bytes = "text".
Proof.
  apply (pi_signal_never_gets_answer "text" 1 2 answer_Y only_client);
    [discriminate | reflexivity | reflexivity].
Defined.

(** X11: the listener of pi-signal.js never fails on a frame the relay
    forwards: it prints the parsed frame, and a second line exactly when
    the frame is an answer. *)
Theorem pi_signal_reads_what_relay_forwards
        (ws : socket) (message : frame) (st : relay) (c : call) :
  In c (calls (onMessage ws message st)) ->
  exists msg,
    parse message = Some msg /\
    pi_signal_on_message message
    = (console_log "Received from server:" [Some msg] ::
       (if prop msg "type" === "answer"
        then [console_log "Received answer from browser." []]
        else []),
       Normal tt).
Proof.
  intros Hin.
  destruct (forwarded_frame_parsed ws message st c Hin) as (msg & Hp & Hn).
  exists msg. split; [assumption|].
  unfold pi_signal_on_message. rewrite Hp.
  destruct msg; [contradiction | reflexivity ..].
Qed.

Lemma pi_signal_reads_what_relay_forwards_witness :
  In (send 1 (data answer_Y)) (calls (onMessage 2 answer_Y both_bound)) /\
  exists msg,
    parse answer_Y = Some msg /\
    pi_signal_on_message answer_Y
    = (console_log "Received from server:" [Some msg] ::
       (if prop msg "type" === "answer"
        then [console_log "Received answer from browser." []]
        else []),
       Normal tt).
Proof.
  split.
  - cbn. left. reflexivity.
  - apply (pi_signal_reads_what_relay_forwards
             2 answer_Y both_bound (send 1 (data answer_Y))).
    cbn. left. reflexivity.
Defined.
